(** * Text-similarity metrics of [tests/unit/test_metrics.py]

    A shallow embedding of [simple_bleu], [rouge_l_f1] and
    [semantic_similarity], and the properties the specification states
    about them.

    Modelling conventions.
    - A Python [str] is a Rocq [string]; each [ascii] stands for the code
      point of the same number (U+0000 .. U+00FF).  On that range
      [str.lower] is a character-wise map and [str.split()] separates on
      the code points for which [str.isspace] holds.
    - A Python [list] of tokens is a [list string]; a [set] of tokens is a
      [gset string].
    - A Python [int] is a [nat]; a Python [float] is idealised as a real
      number of [R], so [/] is the exact quotient and [math.exp] is the
      real exponential.
    - An exception is [None] in the [option] monad. *)

From Stdlib Require Import Reals Lra Lia Ascii String.
From stdpp Require Import base option list strings gmap sets.

(** ** Tokenisation *)

Module Tokenizer.

(** [str.isspace] on U+0000 .. U+00FF: TAB, LF, VT, FF, CR, the four
    separators FS, GS, RS, US, SPACE, NEL and NBSP. *)
Definition isspace (c : ascii) : bool :=
  let n := nat_of_ascii c in
  ((9 <=? n) && (n <=? 13)) || ((28 <=? n) && (n <=? 32))
  || (n =? 133) || (n =? 160).

(** [str.lower] on one code point of U+0000 .. U+00FF: [A-Z] and the
    capital letters U+00C0 .. U+00DE (without the sign U+00D7) move up by
    32; everything else is unchanged. *)
Definition lower_char (c : ascii) : ascii :=
  let n := nat_of_ascii c in
  if ((65 <=? n) && (n <=? 90))
     || ((192 <=? n) && (n <=? 222) && negb (n =? 215))
  then ascii_of_nat (n + 32) else c.

(** [s.lower()] *)
Fixpoint lower (s : string) : string :=
  match s with
  | EmptyString => EmptyString
  | String c s' => String (lower_char c) (lower s')
  end.

(** A finished word is kept only when it has at least one character:
    [split()] never yields an empty token. *)
Definition push_word (w : string) (ws : list string) : list string :=
  match w with
  | EmptyString => ws
  | String _ _ => w :: ws
  end.

(** One scan of the text: the word that is open at the left end of [s],
    and the tokens that follow it. *)
Fixpoint scan (s : string) : string * list string :=
  match s with
  | EmptyString => (EmptyString, [])
  | String c s' =>
      let '(w, ws) := scan s' in
      if isspace c then (EmptyString, push_word w ws)
      else (String c w, ws)
  end.

(** [s.split()]: the maximal runs of non-whitespace, in order. *)
Definition split (s : string) : list string :=
  let '(w, ws) := scan s in push_word w ws.

End Tokenizer.

Import Tokenizer.

(** ** Arithmetic of the Python values *)

Module PyNum.

(** [x / y] on two [int]s: true division, [ZeroDivisionError] on [y = 0]. *)
Definition truediv (x y : nat) : option R :=
  match y with
  | O => None
  | S _ => Some (INR x / INR y)%R
  end.

(** [x / y] on two [float]s: [ZeroDivisionError] on [y = 0.0]. *)
Definition fdiv (x y : R) : option R :=
  if Req_dec_T y 0 then None else Some (x / y)%R.

(** [t in l] on a list: a linear scan with [==]. *)
Fixpoint list_contains (t : string) (l : list string) : bool :=
  match l with
  | [] => false
  | x :: l' => if String.eqb t x then true else list_contains t l'
  end.

(** [sum(...)] on a sequence of [int]s, from the start value 0. *)
Definition sum (l : list nat) : nat := foldl Nat.add 0 l.

(** [for x in xs: s = body(x, s)], stopping at the first exception. *)
Fixpoint for_range {S : Type} (xs : list nat) (body : nat -> S -> option S)
    (s : S) : option S :=
  match xs with
  | [] => Some s
  | x :: xs' => s' ← body x s; for_range xs' body s'
  end.

(** [range(n - 1, -1, -1)]: [n - 1], ..., [1], [0]. *)
Definition range_down (n : nat) : list nat := rev (seq 0 n).

End PyNum.

Import PyNum.

(** ** [simple_bleu] *)

Module Bleu.

(** [sum(1 for t in hyp_tokens if t in ref_tokens)] *)
Definition matches (ref_tokens hyp_tokens : list string) : nat :=
  sum (map (fun _ => 1) (filter (fun t => list_contains t ref_tokens = true) hyp_tokens)).

(** The brevity penalty [bp] of the function body.  [math.exp] is applied
    to [1 - ref_len / hyp_len] only when [hyp_len < ref_len]. *)
Definition bp (ref_len hyp_len : nat) : option R :=
  if hyp_len <? ref_len then
    q ← truediv ref_len hyp_len; Some (exp (1 - q))
  else Some 1%R.

Definition simple_bleu (reference hypothesis : string) : option R :=
  let ref_tokens := split (lower reference) in
  let hyp_tokens := split (lower hypothesis) in
  match hyp_tokens with
  | [] => Some 0%R
  | _ :: _ =>
      precision ← truediv (matches ref_tokens hyp_tokens) (length hyp_tokens);
      let ref_len := length ref_tokens in
      let hyp_len := length hyp_tokens in
      bp ← bp ref_len hyp_len;
      Some (precision * bp)%R
  end.

End Bleu.

Import Bleu.

(** ** [rouge_l_f1] *)

Module Rouge.

(** The table [dp]: a list of rows. *)
Abbreviation table := (list (list nat)).

(** [[[0] * (m + 1) for _ in range(n + 1)]] *)
Definition dp_new (n m : nat) : table := replicate (n + 1) (replicate (m + 1) 0).

(** [dp[i][j]], [IndexError] out of range. *)
Definition dp_get (dp : table) (i j : nat) : option nat :=
  row ← dp !! i; row !! j.

(** [dp[i][j] = v], [IndexError] out of range. *)
Definition dp_set (dp : table) (i j v : nat) : option table :=
  row ← dp !! i;
  if decide (j < length row) then Some (<[i := <[j := v]> row]> dp) else None.

(** The body of the inner loop. *)
Definition lcs_cell (a b : list string) (i j : nat) (dp : table) : option table :=
  ai ← a !! i;
  bj ← b !! j;
  if String.eqb ai bj then
    v ← dp_get dp (i + 1) (j + 1);
    dp_set dp i j (1 + v)
  else
    x ← dp_get dp (i + 1) j;
    y ← dp_get dp i (j + 1);
    dp_set dp i j (Nat.max x y).

(** The two nested loops over the fresh table. *)
Definition lcs_table (a b : list string) : option table :=
  let n := length a in
  let m := length b in
  for_range (range_down n)
    (fun i dp => for_range (range_down m) (fun j dp => lcs_cell a b i j dp) dp)
    (dp_new n m).

(** [lcs = dp[0][0]] after the loops. *)
Definition lcs (a b : list string) : option nat :=
  dp ← lcs_table a b; dp_get dp 0 0.

Definition rouge_l_f1 (reference hypothesis : string) : option R :=
  let a := split reference in
  let b := split hypothesis in
  let n := length a in
  let m := length b in
  lcs ← lcs a b;
  if lcs =? 0 then Some 0%R else
  prec ← (if 0 <? m then truediv lcs m else Some 0%R);
  rec ← (if 0 <? n then truediv lcs n else Some 0%R);
  if Req_dec_T (prec + rec) 0 then Some 0%R else
  fdiv (2 * prec * rec) (prec + rec).

End Rouge.

Import Rouge.

(** ** [semantic_similarity] *)

Module Similarity.

(** The optional import of scikit-learn.  When it succeeds the module has
    the TF-IDF vectoriser and the cosine similarity, here one function from
    the two texts to the similarity (or to an exception); when it fails
    there is none. *)
Definition backend : Type := option (string -> string -> option R).

Definition SKLEARN_AVAILABLE (sk : backend) : bool :=
  match sk with Some _ => true | None => false end.

(** [set(text.lower().split())] *)
Definition token_set (text : string) : gset string :=
  list_to_set (split (lower text)).

(** [not s] on a set: true when it is empty. *)
Definition set_is_empty (s : gset string) : bool := bool_decide (s = ∅).

Definition semantic_similarity (sk : backend) (reference hypothesis : string)
    : option R :=
  if SKLEARN_AVAILABLE sk then
    tfidf_cosine ← sk;
    tfidf_cosine reference hypothesis
  else
    let a := token_set reference in
    let b := token_set hypothesis in
    if set_is_empty a && set_is_empty b then Some 1%R
    else if set_is_empty a || set_is_empty b then Some 0%R
    else
      let inter := a ∩ b in
      let union := a ∪ b in
      truediv (size inter) (size union).

End Similarity.

Import Similarity.

(** ** The test functions of the module *)

Module MetricTests.

(** [assert c]: [AssertionError] when [c] is false. *)
Definition py_assert (c : bool) : option unit :=
  if c then Some tt else None.

(** The comparisons of two floats. *)
Definition float_le (x y : R) : bool := if Rle_dec x y then true else false.
Definition float_lt (x y : R) : bool := if Rlt_dec x y then true else false.
Definition float_ge (x y : R) : bool := if Rge_dec x y then true else false.
Definition float_gt (x y : R) : bool := if Rgt_dec x y then true else false.

Definition test_simple_bleu_threshold : option unit :=
  let ref := "Hello world this is a test" in
  let hyp_good := "Hello world this is a test" in
  let hyp_ok := "Hello this is test" in
  let hyp_bad := "Completely different sentence" in
  good ← simple_bleu ref hyp_good;
  _ ← py_assert (float_ge good 0.9);
  ok ← simple_bleu ref hyp_ok;
  _ ← py_assert (float_ge ok 0.4);
  bad ← simple_bleu ref hyp_bad;
  py_assert (float_lt bad 0.2).

Definition test_rouge_l_f1_values : option unit :=
  let ref := "The quick brown fox jumps over the lazy dog" in
  let hyp_good := "The quick brown fox jumps over the lazy dog" in
  let hyp_partial := "The quick brown fox jumps" in
  good ← rouge_l_f1 ref hyp_good;
  _ ← py_assert (float_gt good 0.9);
  partial ← rouge_l_f1 ref hyp_partial;
  py_assert (float_gt partial 0.3).

Definition test_length_ratio : option unit :=
  let src := "Short sentence for testing" in
  let trans_short := "Short sentence" in
  let trans_long :=
    "This is a considerably longer translation of the original sentence for testing" in
  ratio_short ← truediv (length (split trans_short)) (length (split src));
  ratio_long ← truediv (length (split trans_long)) (length (split src));
  _ ← py_assert (float_le 0.7 ratio_short && float_le ratio_short 1.3
                 || float_lt ratio_short 0.7);
  py_assert (float_gt ratio_long 1.3).

Definition test_semantic_similarity_with_sklearn_or_jaccard (sk : backend)
    : option unit :=
  let ref := "The cat sat on the mat" in
  let hyp_similar := "A cat was sitting on the mat" in
  let hyp_different := "An airplane flew across the sky" in
  sim_score ← semantic_similarity sk ref hyp_similar;
  diff_score ← semantic_similarity sk ref hyp_different;
  _ ← py_assert (float_gt sim_score diff_score);
  _ ← py_assert (float_ge sim_score 0.4);
  py_assert (float_lt diff_score 0.3).

End MetricTests.

Import MetricTests.

(** ** The notions of the specification *)

Module SpecNotions.

(** [s] is a common subsequence of [a] and [b]. *)
Definition common_subseq (s a b : list string) : Prop :=
  s `sublist_of` a /\ s `sublist_of` b.

(** [k] is the length of a longest common subsequence of [a] and [b]. *)
Definition is_lcs_length (a b : list string) (k : nat) : Prop :=
  (exists s, common_subseq s a b /\ length s = k) /\
  (forall s, common_subseq s a b -> length s <= k).

(** The recurrence of the specification on the suffixes of the two token
    sequences: 0 when either is exhausted, one more than the value past both
    heads when the heads are equal, else the larger of the two neighbours. *)
Fixpoint lcs_suffix (a b : list string) : nat :=
  match a with
  | [] => 0
  | x :: a' =>
      (fix inner (b : list string) : nat :=
         match b with
         | [] => 0
         | y :: b' =>
             if String.eqb x y then 1 + lcs_suffix a' b'
             else Nat.max (lcs_suffix a' b) (inner b')
         end) b
  end.

(** The number of tokens of [hyp] that occur in [ref], each occurrence
    counted. *)
Fixpoint count_in (ref hyp : list string) : nat :=
  match hyp with
  | [] => 0
  | t :: hyp' => (if bool_decide (t ∈ ref) then 1 else 0) + count_in ref hyp'
  end.

(** The harmonic mean of precision and recall. *)
Definition f1 (lcs n m : nat) : R :=
  let precision := (INR lcs / INR m)%R in
  let recall := (INR lcs / INR n)%R in
  (2 * precision * recall / (precision + recall))%R.

(** The score of the specification for an LCS of length [lcs]. *)
Definition rouge_value (lcs n m : nat) : R :=
  if decide (lcs = 0) then 0%R else f1 lcs n m.

(** The brevity penalty of the specification. *)
Definition brevity_penalty (ref_len hyp_len : nat) : R :=
  if decide (ref_len <= hyp_len) then 1%R
  else exp (1 - INR ref_len / INR hyp_len).

(** The unclipped unigram precision of the specification. *)
Definition unigram_precision (ref hyp : list string) : R :=
  (INR (count_in ref hyp) / INR (length hyp))%R.

(** The Jaccard similarity of two sets, with the two special cases. *)
Definition jaccard (a b : gset string) : R :=
  if decide (a = ∅ /\ b = ∅) then 1%R
  else if decide (a = ∅ \/ b = ∅) then 0%R
  else (INR (size (a ∩ b)) / INR (size (a ∪ b)))%R.

(** A token of [split()]: at least one character, none of them
    whitespace. *)
Fixpoint no_space (w : string) : bool :=
  match w with
  | EmptyString => true
  | String c w' => negb (isspace c) && no_space w'
  end.

Definition is_token (w : string) : Prop :=
  w <> EmptyString /\ no_space w = true.

(** Two texts differ only in letter case. *)
Definition differ_only_in_case (s t : string) : Prop :=
  s <> t /\ lower s = lower t.

End SpecNotions.

Import SpecNotions.

(** ** The state of the loops of [rouge_l_f1] *)

Module DpInvariant.

Section Tokens.

Variables a b : list string.

(** The value the specification gives to cell [(i, j)]: the recurrence on
    the suffixes from token [i] of [a] and token [j] of [b]. *)
Definition cell_value (i j : nat) : nat := lcs_suffix (drop i a) (drop j b).

(** The cells already written when the loops stand at [(i, j)]: the rows
    below [i], and in row [i] the columns from [j] on. *)
Definition written (i j i' j' : nat) : bool :=
  bool_decide (i < i' \/ (i = i' /\ j <= j')).

(** The table keeps [len(a) + 1] rows of [len(b) + 1] cells. *)
Definition shape (dp : table) : Prop :=
  length dp = length a + 1 /\
  forall i row, dp !! i = Some row -> length row = length b + 1.

(** When the loops stand at [(i, j)], the written cells hold the value of
    the recurrence and the others still hold the initial 0. *)
Definition loop_inv (i j : nat) (dp : table) : Prop :=
  shape dp /\
  forall i' j', i' <= length a -> j' <= length b ->
    dp_get dp i' j' = Some (if written i j i' j' then cell_value i' j' else 0).

End Tokens.

End DpInvariant.

Import DpInvariant.

(** * Properties *)

Example split_ex1 :
  split " The  quick brown fox " = ["The"; "quick"; "brown"; "fox"].
Proof. reflexivity. Qed.

Example split_ex2 : split "" = [] /\ split "   " = [].
Proof. split; reflexivity. Qed.

Example split_ex3 :
  split ("a" +:+ String (ascii_of_nat 9) ("b" +:+ String (ascii_of_nat 10) "c"))
  = ["a"; "b"; "c"].
Proof. reflexivity. Qed.

Example lower_ex1 : lower "Hello World 42" = "hello world 42".
Proof. reflexivity. Qed.

Example lcs_ex1 : lcs ["a"; "b"; "c"; "d"] ["b"; "x"; "d"] = Some 2.
Proof. reflexivity. Qed.

(** ** The table of [rouge_l_f1] *)

Section DpTable.

Variables a b : list string.

Local Abbreviation n := (length a).
Local Abbreviation m := (length b).
Local Abbreviation cell_value := (cell_value a b).
Local Abbreviation shape := (shape a b).
Local Abbreviation loop_inv := (loop_inv a b).

Lemma lcs_suffix_nil_r (l : list string) : lcs_suffix l [] = 0.
Proof. destruct l; reflexivity. Qed.

Lemma lcs_suffix_cons (x y : string) (l k : list string) :
  lcs_suffix (x :: l) (y :: k) =
  if String.eqb x y then 1 + lcs_suffix l k
  else Nat.max (lcs_suffix l (y :: k)) (lcs_suffix (x :: l) k).
Proof. reflexivity. Qed.

Lemma cell_value_last_row (j : nat) : cell_value n j = 0.
Proof. unfold DpInvariant.cell_value. rewrite drop_all. reflexivity. Qed.

Lemma cell_value_last_col (i : nat) : cell_value i m = 0.
Proof. unfold DpInvariant.cell_value. rewrite drop_all. apply lcs_suffix_nil_r. Qed.

Lemma cell_value_step (i j : nat) (ai bj : string) :
  a !! i = Some ai -> b !! j = Some bj ->
  cell_value i j =
  if String.eqb ai bj then 1 + cell_value (i + 1) (j + 1)
  else Nat.max (cell_value (i + 1) j) (cell_value i (j + 1)).
Proof.
  intros Ha Hb. unfold DpInvariant.cell_value.
  rewrite !Nat.add_1_r.
  rewrite (drop_S a ai i Ha), (drop_S b bj j Hb).
  apply lcs_suffix_cons.
Qed.

Lemma dp_get_set (dp dp' : table) (i j v i' j' : nat) :
  dp_set dp i j v = Some dp' ->
  dp_get dp' i' j' =
  if bool_decide (i' = i /\ j' = j) then Some v else dp_get dp i' j'.
Proof.
  unfold dp_set, dp_get. intros H.
  destruct (dp !! i) as [row|] eqn:Hrow; simpl in H; [|discriminate].
  destruct (decide (j < length row)) as [Hj|]; [|discriminate].
  injection H as <-.
  assert (Hi : i < length dp) by (eapply lookup_lt_Some; eassumption).
  destruct (decide (i' = i)) as [->|Hne].
  - rewrite list_lookup_insert_eq by assumption. simpl.
    destruct (decide (j' = j)) as [->|Hnj].
    + rewrite list_lookup_insert_eq by assumption.
      rewrite bool_decide_eq_true_2; auto.
    + rewrite list_lookup_insert_ne by congruence.
      rewrite bool_decide_eq_false_2 by tauto.
      rewrite Hrow. reflexivity.
  - rewrite list_lookup_insert_ne by congruence.
    rewrite bool_decide_eq_false_2 by tauto. reflexivity.
Qed.

Lemma dp_set_shape (dp dp' : table) (i j v : nat) :
  shape dp -> dp_set dp i j v = Some dp' -> shape dp'.
Proof.
  unfold dp_set. intros [Hlen Hrows] H.
  destruct (dp !! i) as [row|] eqn:Hrow; simpl in H; [|discriminate].
  destruct (decide (j < length row)); [|discriminate].
  injection H as <-. split.
  - rewrite length_insert. exact Hlen.
  - intros i' row' Hl.
    destruct (decide (i' = i)) as [->|Hne].
    + rewrite list_lookup_insert_eq in Hl
        by (eapply lookup_lt_Some; eassumption).
      injection Hl as <-. rewrite length_insert. eauto.
    + rewrite list_lookup_insert_ne in Hl by congruence. eauto.
Qed.

Lemma dp_set_total (dp : table) (i j v : nat) :
  shape dp -> i <= n -> j <= m -> exists dp', dp_set dp i j v = Some dp'.
Proof.
  intros [Hlen Hrows] Hi Hj. unfold dp_set.
  destruct (lookup_lt_is_Some_2 dp i) as [row Hrow]; [lia|].
  rewrite Hrow. simpl. specialize (Hrows i row Hrow).
  destruct (decide (j < length row)); [eauto | lia].
Qed.

Lemma dp_new_inv : loop_inv n 0 (dp_new n m).
Proof.
  unfold dp_new. split.
  - split.
    + apply length_replicate.
    + intros i row H. apply lookup_replicate in H as [-> _].
      apply length_replicate.
  - intros i' j' Hi Hj. unfold dp_get.
    rewrite lookup_replicate_2 by lia. simpl.
    rewrite lookup_replicate_2 by lia.
    destruct (written n 0 i' j') eqn:Hw; [|reflexivity].
    unfold written in Hw. apply bool_decide_eq_true_1 in Hw.
    assert (i' = n) as -> by lia.
    rewrite cell_value_last_row. reflexivity.
Qed.

(** One pass of the inner loop body writes cell [(i, j)]. *)
Lemma lcs_cell_inv (i j : nat) (dp : table) :
  i < n -> j < m -> loop_inv i (S j) dp ->
  exists dp', lcs_cell a b i j dp = Some dp' /\ loop_inv i j dp'.
Proof.
  intros Hi Hj [Hshape Hcells].
  destruct (lookup_lt_is_Some_2 a i Hi) as [ai Hai].
  destruct (lookup_lt_is_Some_2 b j Hj) as [bj Hbj].
  assert (Hread : forall i' j', i' <= n -> j' <= m ->
            written i (S j) i' j' = true ->
            dp_get dp i' j' = Some (cell_value i' j')).
  { intros i' j' Hi' Hj' Hw. rewrite Hcells, Hw by assumption. reflexivity. }
  assert (Hnext : forall dp' v, dp_set dp i j v = Some dp' ->
            v = cell_value i j -> loop_inv i j dp').
  { intros dp' v Hset ->. split; [eapply dp_set_shape; eassumption|].
    intros i' j' Hi' Hj'. rewrite (dp_get_set _ _ _ _ _ _ _ Hset).
    case_bool_decide as Heq.
    - destruct Heq as [-> ->]. unfold written.
      rewrite bool_decide_eq_true_2 by lia. reflexivity.
    - rewrite Hcells by assumption. unfold written.
      f_equal. apply (f_equal (fun c : bool => if c then _ else _)).
      apply bool_decide_ext. lia. }
  unfold lcs_cell. rewrite Hai, Hbj. simpl.
  pose proof (cell_value_step i j ai bj Hai Hbj) as Hstep.
  destruct (String.eqb ai bj).
  - rewrite (Hread (i + 1) (j + 1))
      by (try lia; unfold written; apply bool_decide_eq_true_2; lia).
    simpl.
    destruct (dp_set_total dp i j (1 + cell_value (i + 1) (j + 1)) Hshape)
      as [dp' Hset]; [lia | lia |].
    exists dp'. split; [exact Hset|]. eapply Hnext; eauto.
  - rewrite (Hread (i + 1) j)
      by (try lia; unfold written; apply bool_decide_eq_true_2; lia).
    simpl.
    rewrite (Hread i (j + 1))
      by (try lia; unfold written; apply bool_decide_eq_true_2; lia).
    simpl.
    destruct (dp_set_total dp i j
                (Nat.max (cell_value (i + 1) j) (cell_value i (j + 1))) Hshape)
      as [dp' Hset]; [lia | lia |].
    exists dp'. split; [exact Hset|]. eapply Hnext; eauto.
Qed.

Lemma range_down_S (k : nat) : range_down (S k) = k :: range_down k.
Proof. unfold range_down. rewrite seq_S. simpl. apply rev_unit. Qed.

(** The inner loop completes row [i]. *)
Lemma inner_loop_inv (i : nat) :
  i < n -> forall k dp, k <= m -> loop_inv i k dp ->
  exists dp',
    for_range (range_down k) (fun j dp => lcs_cell a b i j dp) dp = Some dp'
    /\ loop_inv i 0 dp'.
Proof.
  intros Hi. induction k as [|k IH]; intros dp Hk Hinv.
  - exists dp. split; [reflexivity | assumption].
  - rewrite range_down_S. simpl.
    destruct (lcs_cell_inv i k dp Hi ltac:(lia) Hinv) as [dp1 [Hc Hinv1]].
    rewrite Hc. simpl. apply IH; [lia | assumption].
Qed.

(** Entering row [i]: its last column still holds the initial 0. *)
Lemma enter_row_inv (i : nat) (dp : table) :
  loop_inv (S i) 0 dp -> loop_inv i m dp.
Proof.
  intros [Hshape Hcells]. split; [assumption|].
  intros i' j' Hi' Hj'. rewrite Hcells by assumption. f_equal.
  unfold written.
  destruct (decide (i = i' /\ j' = m)) as [[-> ->]|Hne].
  - rewrite bool_decide_eq_false_2 by lia.
    rewrite bool_decide_eq_true_2 by lia.
    symmetry. apply cell_value_last_col.
  - apply (f_equal (fun c : bool => if c then _ else _)).
    apply bool_decide_ext. lia.
Qed.

(** The outer loop completes the table. *)
Lemma outer_loop_inv :
  forall k dp, k <= n -> loop_inv k 0 dp ->
  exists dp',
    for_range (range_down k)
      (fun i dp => for_range (range_down m) (fun j dp => lcs_cell a b i j dp) dp)
      dp = Some dp'
    /\ loop_inv 0 0 dp'.
Proof.
  induction k as [|k IH]; intros dp Hk Hinv.
  - exists dp. split; [reflexivity | assumption].
  - rewrite range_down_S. simpl.
    destruct (inner_loop_inv k ltac:(lia) m dp (Nat.le_refl m)
                (enter_row_inv k dp Hinv)) as [dp1 [Hc Hinv1]].
    rewrite Hc. simpl. apply IH; [lia | assumption].
Qed.

(** The loops never raise, and every cell of the finished table holds the
    value of the recurrence. *)
Lemma lcs_table_spec :
  exists dp, lcs_table a b = Some dp /\
    forall i j, i <= n -> j <= m -> dp_get dp i j = Some (cell_value i j).
Proof.
  destruct (outer_loop_inv n (dp_new n m) (Nat.le_refl n) dp_new_inv)
    as [dp [Hrun [_ Hcells]]].
  exists dp. split; [exact Hrun|].
  intros i j Hi Hj. rewrite Hcells by assumption.
  unfold written. rewrite bool_decide_eq_true_2 by lia. reflexivity.
Qed.

(** The finished table satisfies the recurrence cell by cell. *)
Lemma finished_table_recurrence (dp : table) :
  (forall i j, i <= n -> j <= m -> dp_get dp i j = Some (cell_value i j)) ->
  (forall j, j <= m -> dp_get dp n j = Some 0) /\
  (forall i, i <= n -> dp_get dp i m = Some 0) /\
  (forall i j ai bj, a !! i = Some ai -> b !! j = Some bj ->
     exists v diag down right,
       dp_get dp i j = Some v /\
       dp_get dp (i + 1) (j + 1) = Some diag /\
       dp_get dp (i + 1) j = Some down /\
       dp_get dp i (j + 1) = Some right /\
       v = if String.eqb ai bj then 1 + diag else Nat.max down right).
Proof.
  intros Hcells. split; [|split].
  - intros j Hj. by rewrite Hcells, cell_value_last_row.
  - intros i Hi. by rewrite Hcells, cell_value_last_col.
  - intros i j ai bj Hai Hbj.
    assert (i < n) by (eapply lookup_lt_Some; eassumption).
    assert (j < m) by (eapply lookup_lt_Some; eassumption).
    exists (cell_value i j), (cell_value (i + 1) (j + 1)),
      (cell_value (i + 1) j), (cell_value i (j + 1)).
    rewrite !Hcells by lia. repeat split.
    by apply cell_value_step.
Qed.

Lemma lcs_eq_suffix : lcs a b = Some (lcs_suffix a b).
Proof.
  destruct lcs_table_spec as [dp [Hrun Hcells]].
  unfold lcs. rewrite Hrun. simpl.
  rewrite Hcells by lia. reflexivity.
Qed.

End DpTable.

(** ** The recurrence computes the length of a longest common subsequence *)

Section LcsLength.

Implicit Types a b s : list string.

Lemma lcs_suffix_nil_l b : lcs_suffix [] b = 0.
Proof. reflexivity. Qed.

Lemma lcs_suffix_attained a : forall b,
  exists s, common_subseq s a b /\ length s = lcs_suffix a b.
Proof.
  unfold common_subseq.
  induction a as [|x a' IHa]; intros b.
  - exists []. repeat split; apply sublist_nil_l.
  - induction b as [|y b' IHb].
    + exists []. repeat split; apply sublist_nil_l.
    + rewrite lcs_suffix_cons.
      destruct (String.eqb_spec x y) as [->|Hxy].
      * destruct (IHa b') as [s [[Hsa Hsb] Hlen]].
        exists (y :: s). repeat split.
        -- by apply sublist_skip.
        -- by apply sublist_skip.
        -- simpl. by rewrite Hlen.
      * destruct (Nat.max_spec (lcs_suffix a' (y :: b')) (lcs_suffix (x :: a') b'))
          as [[_ ->]|[_ ->]].
        -- destruct IHb as [s [[Hsa Hsb] Hlen]].
           exists s. repeat split; [done | by apply sublist_cons | done].
        -- destruct (IHa (y :: b')) as [s [[Hsa Hsb] Hlen]].
           exists s. repeat split; [by apply sublist_cons | done | done].
Qed.

Lemma lcs_suffix_bound a : forall b s,
  common_subseq s a b -> length s <= lcs_suffix a b.
Proof.
  unfold common_subseq.
  induction a as [|x a' IHa]; intros b s [Hsa Hsb].
  - apply sublist_nil_r in Hsa as ->. simpl. lia.
  - revert s Hsa Hsb. induction b as [|y b' IHb]; intros s Hsa Hsb.
    + apply sublist_nil_r in Hsb as ->. simpl. lia.
    + rewrite lcs_suffix_cons.
      apply sublist_cons_r in Hsa as [Hsa|[s' [-> Hsa]]].
      { (* [s] lies in the tail of [a] *)
        assert (length s <= lcs_suffix a' (y :: b')) by (apply IHa; done).
        destruct (String.eqb_spec x y) as [->|Hxy]; [|lia].
        apply sublist_cons_r in Hsb as [Hsb|[s' [-> Hsb]]].
        - assert (length s <= lcs_suffix a' b') by (apply IHa; done). lia.
        - assert (length s' <= lcs_suffix a' b').
          { apply IHa. split; [|done].
            etrans; [|exact Hsa]. by apply sublist_cons. }
          simpl. lia. }
      apply sublist_cons_r in Hsb as [Hsb|[s'' [Heq Hsb]]].
      { (* [s] starts with the head of [a] and lies in the tail of [b] *)
        assert (length (x :: s') <= lcs_suffix (x :: a') b').
        { apply IHb; [by apply sublist_skip | done]. }
        destruct (String.eqb_spec x y) as [->|Hxy]; [|lia].
        assert (length s' <= lcs_suffix a' b').
        { apply IHa. split; [done|].
          etrans; [|exact Hsb]. by apply sublist_cons. }
        simpl. lia. }
      (* both heads are the head of [s] *)
      injection Heq as -> <-.
      rewrite String.eqb_refl.
      assert (length s' <= lcs_suffix a' b') by (apply IHa; done).
      simpl. lia.
Qed.

Lemma lcs_suffix_is_lcs_length a b : is_lcs_length a b (lcs_suffix a b).
Proof.
  split; [apply lcs_suffix_attained | apply lcs_suffix_bound].
Qed.

Lemma is_lcs_length_unique a b k1 k2 :
  is_lcs_length a b k1 -> is_lcs_length a b k2 -> k1 = k2.
Proof.
  intros [[s1 [Hs1 <-]] Hmax1] [[s2 [Hs2 <-]] Hmax2].
  apply Nat.le_antisymm; auto.
Qed.

Lemma lcs_suffix_comm a : forall b, lcs_suffix a b = lcs_suffix b a.
Proof.
  induction a as [|x a' IHa]; intros b.
  - by rewrite lcs_suffix_nil_r.
  - induction b as [|y b' IHb]; [done|].
    rewrite !lcs_suffix_cons, (String.eqb_sym y x).
    destruct (String.eqb x y).
    + by rewrite IHa.
    + by rewrite (IHa (y :: b')), IHb, Nat.max_comm.
Qed.

Lemma lcs_suffix_le_l a b : lcs_suffix a b <= length a.
Proof.
  destruct (lcs_suffix_attained a b) as [s [[Hsa _] <-]].
  by apply sublist_length.
Qed.

Lemma lcs_suffix_le_r a b : lcs_suffix a b <= length b.
Proof.
  destruct (lcs_suffix_attained a b) as [s [[_ Hsb] <-]].
  by apply sublist_length.
Qed.

Lemma lcs_suffix_diag a : lcs_suffix a a = length a.
Proof.
  apply Nat.le_antisymm; [apply lcs_suffix_le_l|].
  apply lcs_suffix_bound. by split.
Qed.

End LcsLength.

(** ** Tokenisation and letter case *)

Section TokenizerFacts.

Lemma isspace_lower_char (c : ascii) : isspace (lower_char c) = isspace c.
Proof. destruct c as [[] [] [] [] [] [] [] []]; reflexivity. Qed.

Lemma lower_char_idem (c : ascii) : lower_char (lower_char c) = lower_char c.
Proof. destruct c as [[] [] [] [] [] [] [] []]; reflexivity. Qed.

Lemma lower_idem (s : string) : lower (lower s) = lower s.
Proof.
  induction s as [|c s IH]; simpl; [done|].
  by rewrite lower_char_idem, IH.
Qed.

Lemma push_word_lower (w : string) (ws : list string) :
  push_word (lower w) (map lower ws) = map lower (push_word w ws).
Proof. by destruct w. Qed.

Lemma scan_lower (s : string) :
  scan (lower s) = (lower (scan s).1, map lower (scan s).2).
Proof.
  induction s as [|c s IH]; simpl; [done|].
  rewrite IH, isspace_lower_char.
  destruct (scan s) as [w ws]. simpl.
  destruct (isspace c); simpl; [|done].
  by rewrite push_word_lower.
Qed.

Lemma push_word_tokens (w : string) (ws : list string) :
  no_space w = true -> Forall is_token ws -> Forall is_token (push_word w ws).
Proof.
  intros Hw Hws. destruct w as [|c w]; [done|].
  simpl. by constructor.
Qed.

Lemma scan_tokens (s : string) :
  no_space (scan s).1 = true /\ Forall is_token (scan s).2.
Proof.
  induction s as [|c s [IHw IHws]]; simpl; [by split|].
  destruct (scan s) as [w ws]. simpl in *.
  destruct (isspace c) eqn:Hc; simpl.
  - split; [done | by apply push_word_tokens].
  - rewrite Hc. by split.
Qed.

(** Every token of [split] is a non-empty run without whitespace. *)
Lemma split_tokens (s : string) : Forall is_token (split s).
Proof.
  unfold split. pose proof (scan_tokens s) as [Hw Hws].
  destruct (scan s) as [w ws]. by apply push_word_tokens.
Qed.

(** Lowering the text lowers each token and keeps the token boundaries. *)
Lemma split_lower (s : string) : split (lower s) = map lower (split s).
Proof.
  unfold split. rewrite scan_lower.
  destruct (scan s) as [w ws]. simpl. apply push_word_lower.
Qed.

Lemma split_lower_nil (s : string) : split (lower s) = [] <-> split s = [].
Proof.
  rewrite split_lower. split.
  - apply map_eq_nil.
  - by intros ->.
Qed.

End TokenizerFacts.

(** ** Quotients of reals *)

Section RealFacts.

Open Scope R_scope.

Lemma quotient_range (x y : R) : 0 <= x <= y -> 0 < y -> 0 <= x / y <= 1.
Proof.
  intros [H0 Hxy] Hy.
  pose proof (Rinv_0_lt_compat y Hy) as Hi.
  assert (Hone : y * / y = 1) by (apply Rinv_r; lra).
  unfold Rdiv. split; nra.
Qed.

Lemma quotient_pos (x y : R) : 0 < x -> 0 < y -> 0 < x / y.
Proof. apply Rdiv_lt_0_compat. Qed.

Lemma quotient_gt_1 (x y : R) : 0 < y < x -> 1 < x / y.
Proof.
  intros [Hy Hxy].
  pose proof (Rinv_0_lt_compat y Hy) as Hi.
  assert (Hone : y * / y = 1) by (apply Rinv_r; lra).
  unfold Rdiv. nra.
Qed.

Lemma quotient_self (x : R) : x <> 0 -> x / x = 1.
Proof. intros Hx. unfold Rdiv. by apply Rinv_r. Qed.

Lemma exp_neg_lt_1 (x : R) : x < 0 -> exp x < 1.
Proof. intros Hx. rewrite <- exp_0. by apply exp_increasing. Qed.

Lemma quotient_zero (y : R) : 0 / y = 0.
Proof. unfold Rdiv. apply Rmult_0_l. Qed.

End RealFacts.

(** ** Counting and the brevity penalty *)

Section BleuFacts.

Implicit Types ref hyp : list string.

Lemma list_contains_elem_of (t : string) ref :
  list_contains t ref = true <-> t ∈ ref.
Proof.
  induction ref as [|x ref IH]; simpl.
  - split; [discriminate | by intros ?%elem_of_nil].
  - rewrite elem_of_cons.
    destruct (String.eqb_spec t x) as [->|Hne]; [tauto|].
    rewrite IH. tauto.
Qed.

Lemma sum_ones_from {A : Type} (l : list A) (k : nat) :
  foldl Nat.add k (map (fun _ => 1) l) = k + length l.
Proof.
  revert k. induction l as [|x l IH]; intros k; simpl; [lia|].
  rewrite IH. lia.
Qed.

Lemma sum_ones {A : Type} (l : list A) : sum (map (fun _ => 1) l) = length l.
Proof. unfold sum. by rewrite sum_ones_from. Qed.

(** The generator sum of the code is the count of the specification. *)
Lemma matches_count_in ref hyp : matches ref hyp = count_in ref hyp.
Proof.
  unfold matches. rewrite sum_ones.
  induction hyp as [|t hyp IH]; [done|].
  rewrite filter_cons. simpl count_in.
  case_bool_decide as Hin; case_decide as Hc.
  - simpl. by rewrite IH.
  - by apply list_contains_elem_of in Hin.
  - by apply list_contains_elem_of in Hc.
  - by rewrite IH.
Qed.

Lemma count_in_le ref hyp : count_in ref hyp <= length hyp.
Proof.
  induction hyp as [|t hyp IH]; simpl; [lia|]. case_bool_decide; lia.
Qed.

Lemma count_in_nil hyp : count_in [] hyp = 0.
Proof. induction hyp as [|t hyp IH]; simpl; done. Qed.

Lemma count_in_all ref hyp : hyp ⊆ ref -> count_in ref hyp = length hyp.
Proof.
  induction hyp as [|t hyp IH]; intros Hsub; simpl; [done|].
  rewrite bool_decide_eq_true_2 by set_solver.
  rewrite IH by set_solver. done.
Qed.

Lemma count_in_self hyp : count_in hyp hyp = length hyp.
Proof. by apply count_in_all. Qed.

(** A token of the reference is counted as often as the hypothesis
    repeats it, whatever its multiplicity in the reference. *)
Lemma count_in_replicate ref (t : string) (k : nat) :
  t ∈ ref -> count_in ref (replicate k t) = k.
Proof.
  intros Hin. rewrite count_in_all, length_replicate; [done|].
  intros x [-> _]%elem_of_replicate. done.
Qed.

Lemma truediv_pos (x y : nat) : 0 < y -> truediv x y = Some (INR x / INR y)%R.
Proof. destruct y; [lia | done]. Qed.

Lemma bp_value (ref_len hyp_len : nat) :
  0 < hyp_len -> bp ref_len hyp_len = Some (brevity_penalty ref_len hyp_len).
Proof.
  intros Hpos. unfold bp, brevity_penalty.
  destruct (Nat.ltb_spec hyp_len ref_len); case_decide; try lia; [|done].
  by rewrite truediv_pos.
Qed.

Lemma brevity_penalty_range (ref_len hyp_len : nat) :
  0 < hyp_len -> (0 < brevity_penalty ref_len hyp_len <= 1)%R.
Proof.
  intros Hpos. unfold brevity_penalty. case_decide as Hge; [lra|].
  split; [apply exp_pos|].
  left. apply exp_neg_lt_1.
  assert (0 < INR hyp_len)%R by (apply lt_0_INR; lia).
  assert (INR hyp_len < INR ref_len)%R by (apply lt_INR; lia).
  assert (1 < INR ref_len / INR hyp_len)%R by (apply quotient_gt_1; lra).
  lra.
Qed.

Lemma brevity_penalty_short (ref_len hyp_len : nat) :
  0 < hyp_len < ref_len -> (brevity_penalty ref_len hyp_len < 1)%R.
Proof.
  intros [Hpos Hlt]. unfold brevity_penalty. case_decide as Hge; [lia|].
  apply exp_neg_lt_1.
  assert (0 < INR hyp_len)%R by (apply lt_0_INR; lia).
  assert (INR hyp_len < INR ref_len)%R by (apply lt_INR; lia).
  assert (1 < INR ref_len / INR hyp_len)%R by (apply quotient_gt_1; lra).
  lra.
Qed.

Lemma unigram_precision_range ref hyp :
  hyp <> [] -> (0 <= unigram_precision ref hyp <= 1)%R.
Proof.
  intros Hne. unfold unigram_precision.
  assert (0 < INR (length hyp))%R.
  { apply lt_0_INR. destruct hyp; [done | simpl; lia]. }
  assert (0 <= INR (count_in ref hyp))%R by apply pos_INR.
  assert (INR (count_in ref hyp) <= INR (length hyp))%R
    by (apply le_INR, count_in_le).
  apply quotient_range; lra.
Qed.

(** The value of [simple_bleu] in the terms of the specification. *)
Lemma simple_bleu_value (reference hypothesis : string) :
  split (lower hypothesis) <> [] ->
  simple_bleu reference hypothesis =
  Some (unigram_precision (split (lower reference)) (split (lower hypothesis))
        * brevity_penalty (length (split (lower reference)))
                          (length (split (lower hypothesis))))%R.
Proof.
  intros Hne. unfold simple_bleu, unigram_precision.
  destruct (split (lower hypothesis)) as [|t hyp] eqn:Hhyp; [done|].
  rewrite truediv_pos by (simpl; lia). simpl option_bind.
  cbn [mbind option_bind].
  rewrite bp_value by (simpl; lia).
  by rewrite matches_count_in.
Qed.

Lemma simple_bleu_empty (reference hypothesis : string) :
  split (lower hypothesis) = [] -> simple_bleu reference hypothesis = Some 0%R.
Proof. intros H. unfold simple_bleu. by rewrite H. Qed.

End BleuFacts.

(** ** The value of [rouge_l_f1] *)

Section RougeFacts.

Lemma f1_comm (k n m : nat) : f1 k n m = f1 k m n.
Proof. unfold f1, Rdiv. f_equal; [ring | f_equal; ring]. Qed.

Lemma rouge_value_comm (k n m : nat) : rouge_value k n m = rouge_value k m n.
Proof. unfold rouge_value. case_decide; [done | apply f1_comm]. Qed.

Lemma f1_range (k n m : nat) :
  0 < k -> k <= n -> k <= m -> (0 < f1 k n m <= 1)%R.
Proof.
  intros Hk Hn Hm. unfold f1.
  assert (0 < INR k)%R by (apply lt_0_INR; lia).
  assert (INR k <= INR n)%R by (by apply le_INR).
  assert (INR k <= INR m)%R by (by apply le_INR).
  assert (Hp : (0 < INR k / INR m)%R) by (apply quotient_pos; lra).
  assert (Hr : (0 < INR k / INR n)%R) by (apply quotient_pos; lra).
  assert (Hp1 : (0 <= INR k / INR m <= 1)%R) by (apply quotient_range; lra).
  assert (Hr1 : (0 <= INR k / INR n <= 1)%R) by (apply quotient_range; lra).
  set (p := (INR k / INR m)%R) in *. set (r := (INR k / INR n)%R) in *.
  split.
  - apply quotient_pos; nra.
  - apply quotient_range; nra.
Qed.

Lemma f1_diag (k : nat) : 0 < k -> f1 k k k = 1%R.
Proof.
  intros Hk. unfold f1.
  assert (0 < INR k)%R by (apply lt_0_INR; lia).
  rewrite quotient_self by lra. lra.
Qed.

Lemma rouge_value_range (k n m : nat) :
  k <= n -> k <= m -> (0 <= rouge_value k n m <= 1)%R.
Proof.
  intros Hn Hm. unfold rouge_value. case_decide; [lra|].
  destruct (f1_range k n m); [lia | done | done | lra].
Qed.

(** [rouge_l_f1] never raises, and its value is the score of the
    specification at the value of the recurrence. *)
Lemma rouge_l_f1_value (reference hypothesis : string) :
  rouge_l_f1 reference hypothesis =
  Some (rouge_value (lcs_suffix (split reference) (split hypothesis))
          (length (split reference)) (length (split hypothesis))).
Proof.
  unfold rouge_l_f1, rouge_value.
  rewrite lcs_eq_suffix. cbn [mbind option_bind].
  pose proof (lcs_suffix_le_l (split reference) (split hypothesis)) as Hn.
  pose proof (lcs_suffix_le_r (split reference) (split hypothesis)) as Hm.
  set (k := lcs_suffix (split reference) (split hypothesis)) in *.
  set (n := length (split reference)) in *.
  set (m := length (split hypothesis)) in *.
  destruct (Nat.eqb_spec k 0) as [Hk|Hk]; case_decide; try done.
  destruct (f1_range k n m) as [Hpos _]; [lia | done | done |].
  assert (0 < INR k)%R by (apply lt_0_INR; lia).
  assert (INR k <= INR n)%R by (by apply le_INR).
  assert (INR k <= INR m)%R by (by apply le_INR).
  assert (Hp : (0 < INR k / INR m)%R) by (apply quotient_pos; lra).
  assert (Hr : (0 < INR k / INR n)%R) by (apply quotient_pos; lra).
  destruct (Nat.ltb_spec 0 m); [|lia].
  destruct (Nat.ltb_spec 0 n); [|lia].
  rewrite !truediv_pos by done. cbn [mbind option_bind].
  unfold fdiv.
  destruct (Req_dec_T (INR k / INR m + INR k / INR n) 0); [lra | done].
Qed.

End RougeFacts.

(** ** The value of the fallback of [semantic_similarity] *)

Section SimilarityFacts.

Implicit Types a b : gset string.

Lemma jaccard_comm a b : jaccard a b = jaccard b a.
Proof.
  unfold jaccard.
  rewrite (comm_L (∩) a b), (comm_L (∪) a b).
  repeat case_decide; tauto || done.
Qed.

Lemma union_size_pos a b : a <> ∅ -> 0 < size (a ∪ b).
Proof.
  intros Ha.
  destruct (decide (size (a ∪ b) = 0)) as [Hz|]; [|lia].
  apply size_empty_inv in Hz. exfalso. apply Ha.
  apply leibniz_equiv. set_solver.
Qed.

Lemma jaccard_range a b : (0 <= jaccard a b <= 1)%R.
Proof.
  unfold jaccard. repeat case_decide; try lra.
  apply quotient_range.
  - split; [apply pos_INR|]. apply le_INR, subseteq_size.
    etrans; [apply intersection_subseteq_l | apply union_subseteq_l].
  - apply lt_0_INR, union_size_pos. tauto.
Qed.

(** Without scikit-learn [semantic_similarity] never raises, and its value
    is the Jaccard similarity of the two token sets. *)
Lemma semantic_similarity_fallback (reference hypothesis : string) :
  semantic_similarity None reference hypothesis =
  Some (jaccard (token_set reference) (token_set hypothesis)).
Proof.
  unfold semantic_similarity, jaccard, set_is_empty.
  set (a := token_set reference). set (b := token_set hypothesis).
  repeat case_bool_decide; repeat case_decide; simpl; try done; try tauto.
  apply truediv_pos, union_size_pos. tauto.
Qed.

End SimilarityFacts.

(** ** Evaluation on concrete texts *)

(** Evaluate the closed [nat] under each [INR] and turn it into a literal. *)
Ltac eval_counts :=
  repeat match goal with
  | |- context [INR ?k] =>
      let v := eval vm_compute in k in
      let z := eval vm_compute in (Z.of_nat v) in
      replace (INR k) with (IZR z)
        by (change k with v; rewrite INR_IZR_INZ; reflexivity)
  end.

Section RougeEval.


Lemma rouge_value_pos (k n m : nat) : 0 < k -> rouge_value k n m = f1 k n m.
Proof. intros Hk. unfold rouge_value. case_decide; [lia | done]. Qed.

Lemma jaccard_nonempty (a b : gset string) :
  a <> ∅ -> b <> ∅ ->
  jaccard a b = (INR (size (a ∩ b)) / INR (size (a ∪ b)))%R.
Proof. intros Ha Hb. unfold jaccard. repeat case_decide; tauto || done. Qed.

Lemma jaccard_both_empty : jaccard ∅ ∅ = 1%R.
Proof. done. Qed.

Lemma jaccard_one_empty (a b : gset string) :
  (a = ∅ /\ b <> ∅) \/ (a <> ∅ /\ b = ∅) -> jaccard a b = 0%R.
Proof. intros H. unfold jaccard. repeat case_decide; tauto || done. Qed.

Lemma token_set_nonempty (text : string) :
  split (lower text) <> [] -> token_set text <> ∅.
Proof.
  unfold token_set. destruct (split (lower text)) as [|t ts]; [done|].
  intros _ H. apply (not_elem_of_empty (C:=gset string) t).
  rewrite <- H. set_solver.
Qed.

End RougeEval.

(** * The claims of the specification *)

(** C1.  For every reference and hypothesis, [rouge_l_f1] splits both on
    whitespace and fills the table without raising.  In the finished table
    the last row and the last column are 0, and every other cell is one more
    than its diagonal neighbour when the two tokens are equal and otherwise
    the larger of the cell below and the cell to the right; every cell
    [(i, j)] is the length of a longest common subsequence of the suffixes
    from token [i] of the reference and token [j] of the hypothesis;
    [dp[0][0]] is the LCS length [k] of the two token sequences; and the
    function returns 0 when [k] is 0 and otherwise the harmonic mean of the
    precision [k / len(b)] and the recall [k / len(a)]. *)
Theorem C1_rouge_l_f1_lcs_and_harmonic_mean (reference hypothesis : string) :
  let a := split reference in
  let b := split hypothesis in
  exists (dp : table) (k : nat),
    lcs_table a b = Some dp /\
    (forall j, j <= length b -> dp_get dp (length a) j = Some 0) /\
    (forall i, i <= length a -> dp_get dp i (length b) = Some 0) /\
    (forall i j ai bj, a !! i = Some ai -> b !! j = Some bj ->
       exists v diag down right,
         dp_get dp i j = Some v /\
         dp_get dp (i + 1) (j + 1) = Some diag /\
         dp_get dp (i + 1) j = Some down /\
         dp_get dp i (j + 1) = Some right /\
         v = if String.eqb ai bj then 1 + diag else Nat.max down right) /\
    (forall i j, i <= length a -> j <= length b ->
       exists v, dp_get dp i j = Some v /\
                 is_lcs_length (drop i a) (drop j b) v) /\
    dp_get dp 0 0 = Some k /\
    is_lcs_length a b k /\
    rouge_l_f1 reference hypothesis =
      Some (if decide (k = 0) then 0%R
            else (2 * (INR k / INR (length b)) * (INR k / INR (length a))
                  / (INR k / INR (length b) + INR k / INR (length a)))%R).
Proof.
  intros a b.
  destruct (lcs_table_spec a b) as [dp [Hrun Hcells]].
  destruct (finished_table_recurrence a b dp Hcells) as (Hrow & Hcol & Hrec).
  exists dp, (lcs_suffix a b).
  split; [exact Hrun|]. split; [exact Hrow|]. split; [exact Hcol|].
  split; [exact Hrec|]. split; [|split; [|split]].
  - intros i j Hi Hj. eexists. split; [by apply Hcells|].
    apply lcs_suffix_is_lcs_length.
  - by rewrite Hcells by lia.
  - apply lcs_suffix_is_lcs_length.
  - apply rouge_l_f1_value.
Qed.

Lemma C1_witness :
  exists (dp : table) (k : nat),
    lcs_table ["a"; "b"; "c"] ["b"; "c"; "d"] = Some dp /\
    dp_get dp 3 1 = Some 0 /\
    dp_get dp 1 3 = Some 0 /\
    (exists v, dp_get dp 1 0 = Some v /\
               is_lcs_length ["b"; "c"] ["b"; "c"; "d"] v) /\
    dp_get dp 0 0 = Some k /\
    is_lcs_length ["a"; "b"; "c"] ["b"; "c"; "d"] k.
Proof.
  destruct (C1_rouge_l_f1_lcs_and_harmonic_mean "a b c" "b c d")
    as (dp & k & Hrun & Hrow & Hcol & _ & Hcells & Hk & Hlcs & _).
  exists dp, k. split; [exact Hrun|].
  split; [exact (Hrow 1 ltac:(simpl; lia))|].
  split; [exact (Hcol 1 ltac:(simpl; lia))|].
  split; [exact (Hcells 1 0 ltac:(simpl; lia) ltac:(simpl; lia))|].
  split; assumption.
Defined.

(** C2.  When the lowercased hypothesis has a token, [simple_bleu] returns
    the precision times the brevity penalty: the precision is the number of
    hypothesis tokens that occur in the reference, each occurrence counted,
    over the number of hypothesis tokens, and the penalty is 1 when the
    hypothesis is at least as long as the reference and
    [exp (1 - ref_len / hyp_len)] otherwise.  The count is not clipped: a
    reference token repeated [k] times in the hypothesis counts [k] times.
    For the reference "Short sentence for testing" and the hypothesis
    "Short sentence" the precision is 1 and the score is below 1. *)
Theorem C2_simple_bleu_precision_times_penalty :
  (forall reference hypothesis : string,
     let ref_tokens := split (lower reference) in
     let hyp_tokens := split (lower hypothesis) in
     hyp_tokens <> [] ->
     simple_bleu reference hypothesis =
       Some (INR (count_in ref_tokens hyp_tokens) / INR (length hyp_tokens)
             * (if decide (length ref_tokens <= length hyp_tokens)%nat then 1
                else exp (1 - INR (length ref_tokens) / INR (length hyp_tokens))))%R) /\
  (forall (ref_tokens : list string) (t : string) (k : nat),
     t ∈ ref_tokens -> count_in ref_tokens (replicate k t) = k) /\
  (exists score : R,
     simple_bleu "Short sentence for testing" "Short sentence" = Some score /\
     unigram_precision (split (lower "Short sentence for testing"))
                       (split (lower "Short sentence")) = 1%R /\
     (score < 1)%R).
Proof.
  split; [|split].
  - intros reference hypothesis ref_tokens hyp_tokens Hne.
    by rewrite simple_bleu_value.
  - intros ref_tokens t k Hin. by apply count_in_replicate.
  - eexists. split; [by rewrite simple_bleu_value|].
    assert (Hp : unigram_precision (split (lower "Short sentence for testing"))
                   (split (lower "Short sentence")) = 1%R).
    { unfold unigram_precision. eval_counts. lra. }
    split; [exact Hp|]. rewrite Hp.
    change (brevity_penalty _ _) with (brevity_penalty 4 2).
    pose proof (brevity_penalty_short 4 2 ltac:(lia)). lra.
Qed.

Lemma C2_witness :
  simple_bleu "the cat" "The the the" = Some (INR 3 / INR 3 * 1)%R.
Proof.
  exact (proj1 C2_simple_bleu_precision_times_penalty "the cat" "The the the"
           ltac:(discriminate)).
Defined.

(** C3.  For every reference and hypothesis, [simple_bleu] and
    [rouge_l_f1] both return a value, and it lies between 0 and 1. *)
Theorem C3_scores_bounded (reference hypothesis : string) :
  (exists v, simple_bleu reference hypothesis = Some v /\ (0 <= v <= 1)%R) /\
  (exists v, rouge_l_f1 reference hypothesis = Some v /\ (0 <= v <= 1)%R).
Proof.
  split.
  - destruct (split (lower hypothesis)) as [|t ts] eqn:Hhyp.
    + exists 0%R. split; [by apply simple_bleu_empty | lra].
    + eexists. split; [apply simple_bleu_value; by rewrite Hhyp|].
      rewrite Hhyp.
      pose proof (unigram_precision_range (split (lower reference)) (t :: ts)
                    ltac:(done)).
      pose proof (brevity_penalty_range (length (split (lower reference)))
                    (length (t :: ts)) ltac:(simpl; lia)).
      nra.
  - eexists. split; [apply rouge_l_f1_value|].
    apply rouge_value_range; [apply lcs_suffix_le_l | apply lcs_suffix_le_r].
Qed.

(** C4.  For every text with at least one token, [simple_bleu t t] and
    [rouge_l_f1 t t] are both 1. *)
Theorem C4_identity_scores_one (t : string) :
  split t <> [] ->
  simple_bleu t t = Some 1%R /\ rouge_l_f1 t t = Some 1%R.
Proof.
  intros Hne.
  assert (Hlen : 0 < length (split t)) by (destruct (split t); [done | simpl; lia]).
  split.
  - assert (Hlow : split (lower t) <> []) by (by rewrite split_lower_nil).
    rewrite simple_bleu_value by done. f_equal.
    unfold unigram_precision, brevity_penalty.
    rewrite count_in_self. case_decide; [|lia].
    rewrite quotient_self; [lra|].
    apply not_0_INR. rewrite split_lower, length_map. lia.
  - rewrite rouge_l_f1_value, lcs_suffix_diag.
    rewrite rouge_value_pos by done. f_equal. by apply f1_diag.
Qed.

Lemma C4_witness :
  simple_bleu "Hello world" "Hello world" = Some 1%R /\
  rouge_l_f1 "Hello world" "Hello world" = Some 1%R.
Proof.
  exact (C4_identity_scores_one "Hello world" ltac:(discriminate)).
Defined.

(** C5.  Without scikit-learn, [semantic_similarity] works on the two sets
    of lowercased whitespace tokens: it returns 1 when both are empty, 0 when
    exactly one is empty, and otherwise the size of the intersection over the
    size of the union; for every pair of texts it returns a value (it never
    raises), and the value lies between 0 and 1. *)
Theorem C5_jaccard_fallback (reference hypothesis : string) :
  let a : gset string := list_to_set (split (lower reference)) in
  let b : gset string := list_to_set (split (lower hypothesis)) in
  let result := semantic_similarity None reference hypothesis in
  (a = ∅ /\ b = ∅ -> result = Some 1%R) /\
  ((a = ∅ /\ b <> ∅) \/ (a <> ∅ /\ b = ∅) -> result = Some 0%R) /\
  (a <> ∅ /\ b <> ∅ ->
     result = Some (INR (size (a ∩ b)) / INR (size (a ∪ b)))%R) /\
  (exists v, result = Some v /\ (0 <= v <= 1)%R).
Proof.
  intros a b result. unfold result.
  rewrite semantic_similarity_fallback.
  change (token_set reference) with a. change (token_set hypothesis) with b.
  repeat split.
  - intros [-> ->]. by rewrite jaccard_both_empty.
  - intros H. by rewrite jaccard_one_empty.
  - intros [Ha Hb]. by rewrite jaccard_nonempty.
  - eexists. split; [done | apply jaccard_range].
Qed.

Lemma C5_witness :
  semantic_similarity None "" "" = Some 1%R /\
  semantic_similarity None "a b" "" = Some 0%R /\
  semantic_similarity None "a b" "B c" = Some (INR 1 / INR 3)%R.
Proof.
  split; [|split].
  - apply (C5_jaccard_fallback "" ""). by split.
  - apply (C5_jaccard_fallback "a b" ""). right. by split.
  - apply (C5_jaccard_fallback "a b" "B c"). by split.
Defined.

(** C6.  [simple_bleu] returns 0 for the empty hypothesis whatever the
    reference, and more generally whenever the hypothesis has no token; when
    the reference has no token and the hypothesis has one, the brevity
    penalty is 1 and the score is 0.  No case raises. *)
Theorem C6_simple_bleu_degenerate_inputs :
  (forall reference : string, simple_bleu reference "" = Some 0%R) /\
  (forall reference hypothesis : string,
     split (lower hypothesis) = [] ->
     simple_bleu reference hypothesis = Some 0%R) /\
  (forall reference hypothesis : string,
     split (lower reference) = [] ->
     split (lower hypothesis) <> [] ->
     bp (length (split (lower reference))) (length (split (lower hypothesis)))
       = Some 1%R /\
     matches (split (lower reference)) (split (lower hypothesis)) = 0 /\
     simple_bleu reference hypothesis = Some 0%R).
Proof.
  split; [|split].
  - intros reference. by apply simple_bleu_empty.
  - intros reference hypothesis. apply simple_bleu_empty.
  - intros reference hypothesis Href Hhyp.
    assert (Hlen : 0 < length (split (lower hypothesis)))
      by (destruct (split (lower hypothesis)); [done | simpl; lia]).
    assert (Hbp : brevity_penalty 0 (length (split (lower hypothesis))) = 1%R).
    { unfold brevity_penalty. case_decide; [done | lia]. }
    rewrite simple_bleu_value by done. rewrite Href. simpl length.
    rewrite bp_value, Hbp by done.
    rewrite matches_count_in. unfold unigram_precision.
    rewrite count_in_nil. simpl INR. rewrite quotient_zero.
    repeat split; f_equal; lra.
Qed.

Lemma C6_witness :
  simple_bleu "Hello" "   " = Some 0%R /\
  simple_bleu " " "Hello world" = Some 0%R.
Proof.
  split.
  - exact (proj1 (proj2 C6_simple_bleu_degenerate_inputs) "Hello" "   "
             eq_refl).
  - exact (proj2 (proj2 (proj2 (proj2 C6_simple_bleu_degenerate_inputs)
                          " " "Hello world" eq_refl ltac:(discriminate)))).
Defined.

(** C7.  [rouge_l_f1] compares the tokens of the plain split, with their
    case: its value is the score at the recurrence on [split reference] and
    [split hypothesis].  [simple_bleu] compares the lowercased tokens: its
    value does not change when both texts are lowercased.  There are two
    texts that differ only in letter case for which [rouge_l_f1] returns 0
    and [simple_bleu] returns 1. *)
Theorem C7_case_sensitivity :
  (forall reference hypothesis : string,
     rouge_l_f1 reference hypothesis =
       Some (rouge_value (lcs_suffix (split reference) (split hypothesis))
               (length (split reference)) (length (split hypothesis)))) /\
  (forall reference hypothesis : string,
     simple_bleu reference hypothesis =
       simple_bleu (lower reference) (lower hypothesis)) /\
  (exists reference hypothesis : string,
     differ_only_in_case reference hypothesis /\
     rouge_l_f1 reference hypothesis = Some 0%R /\
     simple_bleu reference hypothesis = Some 1%R).
Proof.
  split; [|split].
  - apply rouge_l_f1_value.
  - intros reference hypothesis. unfold simple_bleu.
    by rewrite !lower_idem.
  - exists "Hello World", "hello world". split; [by split|]. split.
    + by rewrite rouge_l_f1_value.
    + rewrite simple_bleu_value by done. f_equal.
      unfold unigram_precision.
      change (brevity_penalty _ _) with (brevity_penalty 2 2).
      unfold brevity_penalty. case_decide; [|lia].
      eval_counts. lra.
Qed.

(** C8.  Without scikit-learn, the similarity of "The cat sat on the mat"
    to "A cat was sitting on the mat" is strictly greater than its
    similarity to "An airplane flew across the sky". *)
Theorem C8_near_duplicate_beats_unrelated :
  exists near far : R,
    semantic_similarity None "The cat sat on the mat"
      "A cat was sitting on the mat" = Some near /\
    semantic_similarity None "The cat sat on the mat"
      "An airplane flew across the sky" = Some far /\
    (near > far)%R.
Proof.
  eexists _, _. rewrite !semantic_similarity_fallback.
  split; [done|]. split; [done|].
  rewrite !jaccard_nonempty by (by apply token_set_nonempty).
  eval_counts. lra.
Qed.

(** C9.  For the reference "The quick brown fox jumps over the lazy dog"
    and its prefix "The quick brown fox jumps", [rouge_l_f1] returns a
    value strictly between 0.3 and 1. *)
Theorem C9_prefix_hypothesis_score :
  exists v : R,
    rouge_l_f1 "The quick brown fox jumps over the lazy dog"
      "The quick brown fox jumps" = Some v /\
    (0.3 < v < 1)%R.
Proof.
  eexists. split; [apply rouge_l_f1_value|].
  change (rouge_value _ _ _) with (rouge_value 5 9 5).
  rewrite rouge_value_pos by lia. unfold f1.
  eval_counts. lra.
Qed.

(** C10.  [rouge_l_f1] is symmetric in its two arguments, and so is
    [semantic_similarity] without scikit-learn; [simple_bleu] is not: there
    are two texts whose score changes when they are swapped. *)
Theorem C10_symmetry :
  (forall a b : string, rouge_l_f1 a b = rouge_l_f1 b a) /\
  (forall a b : string,
     semantic_similarity None a b = semantic_similarity None b a) /\
  (exists a b : string, simple_bleu a b <> simple_bleu b a).
Proof.
  split; [|split].
  - intros a b. rewrite !rouge_l_f1_value.
    by rewrite lcs_suffix_comm, rouge_value_comm.
  - intros a b. rewrite !semantic_similarity_fallback.
    by rewrite jaccard_comm.
  - exists "a a", "a b".
    rewrite !simple_bleu_value by done.
    unfold unigram_precision.
    change (brevity_penalty _ _) with (brevity_penalty 2 2).
    unfold brevity_penalty. case_decide; [|lia].
    eval_counts. intros [=Hswap]. lra.
Qed.

(** * Further properties of the three metrics *)

(** ** Common subsequences and common tokens *)

Section LcsFacts.

Implicit Types a b s : list string.

Lemma sublist_full_length s a :
  s `sublist_of` a -> length a <= length s -> s = a.
Proof.
  induction 1 as [|x s a Hsub IH|x s a Hsub IH]; simpl; intros Hlen.
  - done.
  - f_equal. apply IH. lia.
  - apply sublist_length in Hsub. lia.
Qed.

(** The recurrence is 0 exactly when the two sequences share no token. *)
Lemma lcs_suffix_zero_iff a b :
  lcs_suffix a b = 0 <-> (forall t, t ∈ a -> t ∉ b).
Proof.
  split.
  - intros Hz t Ha Hb.
    assert (length [t] <= lcs_suffix a b) as Hle.
    { apply lcs_suffix_bound. split; by apply singleton_sublist_l. }
    simpl in Hle. lia.
  - intros Hdis.
    destruct (lcs_suffix_attained a b) as [s [[Hsa Hsb] <-]].
    destruct s as [|t s]; [done|]. exfalso.
    apply (Hdis t).
    + eapply elem_of_sublist; [|exact Hsa]. by left.
    + eapply elem_of_sublist; [|exact Hsb]. by left.
Qed.


(** The recurrence reaches both lengths only on equal sequences. *)
Lemma lcs_suffix_full a b :
  lcs_suffix a b = length a -> lcs_suffix a b = length b -> a = b.
Proof.
  intros Ha Hb.
  destruct (lcs_suffix_attained a b) as [s [[Hsa Hsb] Hlen]].
  rewrite <- (sublist_full_length s a), <- (sublist_full_length s b);
    [done | done | lia | done | lia].
Qed.

End LcsFacts.

(** ** The harmonic mean in closed form *)

Section HarmonicMean.

Open Scope R_scope.

Lemma f1_closed_form (k n m : nat) :
  (0 < k)%nat -> (k <= n)%nat -> (k <= m)%nat ->
  f1 k n m = 2 * INR k / INR (n + m).
Proof.
  intros Hk Hn Hm. unfold f1. rewrite plus_INR.
  assert (0 < INR k) by (apply lt_0_INR; lia).
  assert (0 < INR n) by (apply lt_0_INR; lia).
  assert (0 < INR m) by (apply lt_0_INR; lia).
  field. repeat split; nra.
Qed.

Lemma rouge_value_zero_iff (k n m : nat) :
  (k <= n)%nat -> (k <= m)%nat -> rouge_value k n m = 0 <-> k = 0%nat.
Proof.
  intros Hn Hm. unfold rouge_value. case_decide as Hk; [done|].
  destruct (f1_range k n m) as [Hpos _]; [lia | done | done |].
  split; [lra | done].
Qed.

Lemma rouge_value_one_iff (k n m : nat) :
  (k <= n)%nat -> (k <= m)%nat ->
  rouge_value k n m = 1 <-> (0 < k)%nat /\ k = n /\ k = m.
Proof.
  intros Hn Hm. unfold rouge_value. case_decide as Hk.
  - split; [lra | lia].
  - rewrite f1_closed_form by lia.
    assert (0 < INR (n + m)) by (apply lt_0_INR; lia).
    split.
    + intros Hone.
      assert (Heq : 2 * INR k = INR (n + m)).
      { apply (Rmult_eq_compat_r (INR (n + m))) in Hone.
        unfold Rdiv in Hone. rewrite Rmult_assoc, Rinv_l in Hone; lra. }
      change 2 with (INR 2) in Heq. rewrite <- mult_INR in Heq.
      apply INR_eq in Heq. lia.
    + intros (_ & <- & <-). rewrite plus_INR. field. 
      assert (0 < INR k) by (apply lt_0_INR; lia). lra.
Qed.

End HarmonicMean.

(** X1.  [rouge_l_f1] returns twice the LCS length over the total number
    of tokens of the two texts (and 0 when the LCS is empty). *)
Theorem rouge_l_f1_closed_form (reference hypothesis : string) :
  exists k : nat,
    is_lcs_length (split reference) (split hypothesis) k /\
    rouge_l_f1 reference hypothesis =
      Some (if decide (k = 0) then 0%R
            else (2 * INR k
                  / INR (length (split reference) + length (split hypothesis)))%R).
Proof.
  exists (lcs_suffix (split reference) (split hypothesis)).
  split; [apply lcs_suffix_is_lcs_length|].
  rewrite rouge_l_f1_value. f_equal. unfold rouge_value.
  case_decide; [done|].
  apply f1_closed_form; [lia | apply lcs_suffix_le_l | apply lcs_suffix_le_r].
Qed.

(** X2.  [rouge_l_f1] returns 0 exactly when no token of the reference
    occurs, with the same letter case, in the hypothesis. *)
Theorem rouge_l_f1_zero_iff_no_common_token (reference hypothesis : string) :
  rouge_l_f1 reference hypothesis = Some 0%R <->
  (forall t, t ∈ split reference -> t ∉ split hypothesis).
Proof.
  rewrite rouge_l_f1_value, <- lcs_suffix_zero_iff.
  rewrite <- (rouge_value_zero_iff _ (length (split reference))
                (length (split hypothesis)))
    by (apply lcs_suffix_le_l || apply lcs_suffix_le_r).
  split; [by intros [= ->] | by intros ->].
Qed.

(** X3.  [rouge_l_f1] returns 1 exactly when the two texts have the same
    token sequence and it is not empty. *)
Theorem rouge_l_f1_one_iff_same_tokens (reference hypothesis : string) :
  rouge_l_f1 reference hypothesis = Some 1%R <->
  split reference = split hypothesis /\ split reference <> [].
Proof.
  rewrite rouge_l_f1_value.
  pose proof (lcs_suffix_le_l (split reference) (split hypothesis)) as Hn.
  pose proof (lcs_suffix_le_r (split reference) (split hypothesis)) as Hm.
  split.
  - intros [= Hone]. apply rouge_value_one_iff in Hone as (Hk & Hkn & Hkm);
      [|done|done].
    split; [by apply lcs_suffix_full|].
    intros Hnil. rewrite Hkn, Hnil in Hk. simpl in Hk. lia.
  - intros [Heq Hne]. f_equal. rewrite <- Heq, lcs_suffix_diag.
    apply rouge_value_one_iff; [done | done |].
    destruct (split reference); [done | simpl; lia].
Qed.



(** ** Counting matches *)

Section CountFacts.

Implicit Types ref hyp : list string.

Lemma count_in_app ref hyp1 hyp2 :
  count_in ref (hyp1 ++ hyp2) = count_in ref hyp1 + count_in ref hyp2.
Proof. induction hyp1 as [|t hyp1 IH]; simpl; [done|]. rewrite IH. lia. Qed.


Lemma count_in_full_iff ref hyp :
  count_in ref hyp = length hyp <-> (forall t, t ∈ hyp -> t ∈ ref).
Proof.
  split; [|apply count_in_all].
  induction hyp as [|t hyp IH]; simpl.
  - by intros _ t ?%elem_of_nil.
  - pose proof (count_in_le ref hyp).
    case_bool_decide as Hin; [|lia].
    intros Hc t' [->|Ht']%elem_of_cons; [done|]. apply IH; [lia | done].
Qed.

Lemma count_in_perm_hyp ref hyp hyp' :
  hyp ≡ₚ hyp' -> count_in ref hyp = count_in ref hyp'.
Proof. induction 1; simpl; lia. Qed.

Lemma count_in_ext_ref ref ref' hyp :
  (forall t, t ∈ ref <-> t ∈ ref') -> count_in ref hyp = count_in ref' hyp.
Proof.
  intros Hext. induction hyp as [|t hyp IH]; simpl; [done|].
  rewrite IH. f_equal. by rewrite (bool_decide_ext _ _ (Hext t)).
Qed.

End CountFacts.

Section PrecisionFacts.

Open Scope R_scope.

Lemma quotient_le (x y x' y' : R) :
  0 < y -> 0 < y' -> x * y' <= x' * y -> x / y <= x' / y'.
Proof.
  intros Hy Hy' Hcross.
  assert (Hpos : 0 < / (y * y')) by (apply Rinv_0_lt_compat; nra).
  replace (x / y) with (x * y' * / (y * y')) by (field; lra).
  replace (x' / y') with (x' * y * / (y * y')) by (field; lra).
  apply Rmult_le_compat_r; lra.
Qed.

Lemma quotient_zero_iff (x y : R) : 0 < y -> x / y = 0 <-> x = 0.
Proof.
  intros Hy. pose proof (Rinv_0_lt_compat y Hy). unfold Rdiv. split; nra.
Qed.

Lemma quotient_one_iff (x y : R) : 0 < y -> x / y = 1 <-> x = y.
Proof.
  intros Hy. split.
  - intros Hq. apply (Rmult_eq_compat_r y) in Hq.
    unfold Rdiv in Hq. rewrite Rmult_assoc, Rinv_l in Hq; lra.
  - intros ->. apply quotient_self. lra.
Qed.


Lemma product_one (p b : R) :
  0 <= p <= 1 -> 0 < b <= 1 -> p * b = 1 -> p = 1 /\ b = 1.
Proof.
  intros Hp Hb Hone.
  assert (p * b <= b) by nra.
  assert (b = 1) as -> by lra.
  split; lra.
Qed.

Lemma exp_le_mono (x y : R) : x <= y -> exp x <= exp y.
Proof.
  intros [Hlt| ->]; [left; by apply exp_increasing | lra].
Qed.

(** For a fixed reference the brevity penalty does not fall when the
    hypothesis grows. *)
Lemma brevity_penalty_mono (ref_len h1 h2 : nat) :
  (0 < h1)%nat -> (h1 <= h2)%nat ->
  brevity_penalty ref_len h1 <= brevity_penalty ref_len h2.
Proof.
  intros Hpos Hle.
  destruct (decide (ref_len <= h2)%nat) as [Hge|Hlt].
  - destruct (brevity_penalty_range ref_len h1 Hpos) as [_ Hup].
    unfold brevity_penalty at 2. by case_decide.
  - unfold brevity_penalty. repeat case_decide; try lia.
    apply exp_le_mono.
    assert (0 < INR h1) by (apply lt_0_INR; lia).
    assert (INR h1 <= INR h2) by (by apply le_INR).
    assert (0 <= INR ref_len) by apply pos_INR.
    assert (INR ref_len / INR h2 <= INR ref_len / INR h1)
      by (apply quotient_le; nra).
    lra.
Qed.


Lemma unigram_precision_one_iff (ref hyp : list string) :
  hyp <> [] ->
  unigram_precision ref hyp = 1 <-> count_in ref hyp = length hyp.
Proof.
  intros Hne. unfold unigram_precision.
  rewrite quotient_one_iff
    by (apply lt_0_INR; destruct hyp; [done | simpl; lia]).
  split; [apply INR_eq | by intros ->].
Qed.

End PrecisionFacts.


(** X6.  [simple_bleu] returns 1 exactly when the hypothesis has a token,
    each of its lowercased tokens occurs in the lowercased reference, and it
    has at least as many tokens as the reference. *)
Theorem simple_bleu_one_iff (reference hypothesis : string) :
  simple_bleu reference hypothesis = Some 1%R <->
  split (lower hypothesis) <> [] /\
  (forall t, t ∈ split (lower hypothesis) -> t ∈ split (lower reference)) /\
  length (split (lower reference)) <= length (split (lower hypothesis)).
Proof.
  rewrite <- count_in_full_iff.
  destruct (split (lower hypothesis)) as [|t ts] eqn:Hhyp.
  - rewrite simple_bleu_empty by done. split; [intros [=]; lra | by intros []].
  - rewrite simple_bleu_value, Hhyp by (by rewrite Hhyp).
    rewrite <- unigram_precision_one_iff by done.
    pose proof (unigram_precision_range (split (lower reference)) (t :: ts)
                  ltac:(done)) as Hp.
    pose proof (brevity_penalty_range (length (split (lower reference)))
                  (length (t :: ts)) ltac:(simpl; lia)) as Hbp.
    split.
    + intros [= Hone]. split; [done|].
      apply product_one in Hone as [Hp1 Hbp1]; [|done|done].
      split; [done|].
      destruct (decide (length (split (lower reference)) <= length (t :: ts)))
        as [|Hshort]; [done|].
      pose proof (brevity_penalty_short (length (split (lower reference)))
                    (length (t :: ts)) ltac:(simpl in *; lia)).
      simpl length in *. lra.
    + intros (_ & -> & Hlen). f_equal.
      unfold brevity_penalty. case_decide; [lra | done].
Qed.

(** X7.  [simple_bleu] ignores the order of the tokens: permuting the
    tokens of the reference or of the hypothesis leaves the score unchanged.
    [rouge_l_f1] does not: there is a permutation of the hypothesis that
    changes it. *)
Theorem simple_bleu_order_insensitive :
  (forall reference reference' hypothesis hypothesis' : string,
     split (lower reference) ≡ₚ split (lower reference') ->
     split (lower hypothesis) ≡ₚ split (lower hypothesis') ->
     simple_bleu reference hypothesis = simple_bleu reference' hypothesis') /\
  (exists reference hypothesis hypothesis' : string,
     split hypothesis ≡ₚ split hypothesis' /\
     rouge_l_f1 reference hypothesis <> rouge_l_f1 reference hypothesis').
Proof.
  split.
  - intros reference reference' hypothesis hypothesis' Href Hhyp.
    unfold simple_bleu.
    rewrite !matches_count_in.
    rewrite (count_in_perm_hyp _ _ _ Hhyp).
    rewrite (count_in_ext_ref _ (split (lower reference')))
      by (intros t; by rewrite Href).
    rewrite (Permutation_length Href), (Permutation_length Hhyp).
    destruct (split (lower hypothesis)) as [|t ts];
      destruct (split (lower hypothesis')) as [|t' ts']; try done.
    + by apply Permutation_nil_cons in Hhyp.
    + symmetry in Hhyp. by apply Permutation_nil_cons in Hhyp.
  - exists "a b", "a b", "b a". split; [apply perm_swap|].
    rewrite !rouge_l_f1_value.
    change (rouge_value _ _ _) with (rouge_value 2 2 2) at 1.
    change (rouge_value _ _ _) with (rouge_value 1 2 2) at 2.
    rewrite !rouge_value_pos by lia. unfold f1.
    eval_counts. intros [= Heq]. lra.
Qed.

Lemma simple_bleu_order_insensitive_witness :
  simple_bleu "the cat sat" "cat the" = simple_bleu "sat the cat" "The Cat".
Proof.
  apply (proj1 simple_bleu_order_insensitive).
  - change (["the"; "cat"; "sat"] ≡ₚ ["sat"; "the"; "cat"]).
    etrans; [apply perm_skip, perm_swap | apply perm_swap].
  - apply perm_swap.
Defined.

(** X8.  Padding the hypothesis with one more token that occurs in the
    reference never lowers [simple_bleu]. *)
Theorem simple_bleu_padding_never_lowers
    (reference hypothesis hypothesis' : string) (t : string) :
  split (lower hypothesis') = split (lower hypothesis) ++ [t] ->
  t ∈ split (lower reference) ->
  exists v v' : R,
    simple_bleu reference hypothesis = Some v /\
    simple_bleu reference hypothesis' = Some v' /\
    (v <= v')%R.
Proof.
  intros Hpad Hin.
  set (ref := split (lower reference)) in *.
  assert (Hne' : split (lower hypothesis') <> [])
    by (rewrite Hpad; by destruct (split (lower hypothesis))).
  pose proof (unigram_precision_range ref _ Hne') as Hp'.
  pose proof (brevity_penalty_range (length ref)
                (length (split (lower hypothesis')))
                ltac:(rewrite Hpad, length_app; simpl; lia)) as Hbp'.
  destruct (split (lower hypothesis)) as [|u us] eqn:Hhyp.
  - exists 0%R. eexists. split; [by apply simple_bleu_empty|].
    split; [by apply simple_bleu_value|]. fold ref. nra.
  - eexists _, _. split; [apply simple_bleu_value; by rewrite Hhyp|].
    split; [by apply simple_bleu_value|].
    fold ref. rewrite Hhyp, Hpad in *.
    pose proof (unigram_precision_range ref (u :: us) ltac:(done)) as Hp.
    pose proof (brevity_penalty_range (length ref) (length (u :: us))
                  ltac:(simpl; lia)) as Hbp.
    pose proof (brevity_penalty_mono (length ref) (length (u :: us))
                  (length ((u :: us) ++ [t])) ltac:(simpl; lia)
                  ltac:(rewrite length_app; lia)) as Hmono.
    assert (Hprec : (unigram_precision ref (u :: us)
                     <= unigram_precision ref ((u :: us) ++ [t]))%R).
    { unfold unigram_precision.
      rewrite count_in_app, !length_app. simpl (count_in ref [t]).
      rewrite bool_decide_eq_true_2 by done.
      pose proof (count_in_le ref (u :: us)) as Hc.
      apply le_INR in Hc.
      assert (0 < INR (length (u :: us)))%R by (apply lt_0_INR; simpl; lia).
      assert (0 <= INR (count_in ref (u :: us)))%R by apply pos_INR.
      rewrite !plus_INR.
      replace (INR 1 + INR 0)%R with 1%R by (simpl; lra).
      replace (INR (length [t])) with 1%R by (simpl; lra).
      apply quotient_le; nra. }
    nra.
Qed.

Lemma simple_bleu_padding_never_lowers_witness :
  exists v v' : R,
    simple_bleu "the cat sat" "a cat" = Some v /\
    simple_bleu "the cat sat" "a cat the" = Some v' /\
    (v <= v')%R.
Proof.
  apply (simple_bleu_padding_never_lowers "the cat sat" "a cat" "a cat the" "the").
  - reflexivity.
  - by left.
Defined.

(** ** The extremes of the Jaccard similarity *)

Section JaccardFacts.

Implicit Types a b : gset string.

Lemma jaccard_one_iff a b : jaccard a b = 1%R <-> a = b.
Proof.
  unfold jaccard. case_decide as Hboth; [|case_decide as Hone].
  - destruct Hboth as [-> ->]. done.
  - split; [lra|]. intros ->. tauto.
  - assert (Hpos : 0 < size (a ∪ b)) by (apply union_size_pos; tauto).
    rewrite quotient_one_iff by (by apply lt_0_INR).
    split.
    + intros Hsz%INR_eq.
      assert (Heq : a ∩ b = a ∪ b).
      { apply set_subseteq_size_eq; [|lia].
        etrans; [apply intersection_subseteq_l | apply union_subseteq_l]. }
      apply leibniz_equiv. apply set_equiv. intros x.
      assert (Hx : x ∈ a ∩ b <-> x ∈ a ∪ b) by (by rewrite Heq).
      rewrite elem_of_intersection, elem_of_union in Hx. tauto.
    + intros ->. by rewrite (idemp_L (∩)), (idemp_L (∪)).
Qed.

Lemma jaccard_zero_iff a b :
  jaccard a b = 0%R <-> a ∩ b = ∅ /\ ~ (a = ∅ /\ b = ∅).
Proof.
  unfold jaccard. case_decide as Hboth; [|case_decide as Hone].
  - split; [lra | tauto].
  - split; [|done]. intros _. split; [|done].
    destruct Hone as [-> | ->];
      [apply intersection_empty_l_L | apply intersection_empty_r_L].
  - assert (Hpos : 0 < size (a ∪ b)) by (apply union_size_pos; tauto).
    rewrite quotient_zero_iff by (by apply lt_0_INR).
    split.
    + intros Hz%(INR_eq _ 0). split; [|done].
      apply leibniz_equiv. by apply size_empty_inv.
    + intros [-> _]. by rewrite size_empty.
Qed.

End JaccardFacts.

(** X9.  Without scikit-learn, [semantic_similarity] returns 1 exactly
    when the two texts have the same set of lowercased tokens (two texts
    without tokens included). *)
Theorem semantic_similarity_one_iff_same_token_set
    (reference hypothesis : string) :
  semantic_similarity None reference hypothesis = Some 1%R <->
  token_set reference = token_set hypothesis.
Proof.
  rewrite semantic_similarity_fallback, <- jaccard_one_iff.
  split; [by intros [= ->] | by intros ->].
Qed.

(** X10.  Without scikit-learn, [semantic_similarity] returns 0 exactly
    when the two token sets are disjoint and at least one text has a
    token. *)
Theorem semantic_similarity_zero_iff_disjoint
    (reference hypothesis : string) :
  semantic_similarity None reference hypothesis = Some 0%R <->
  token_set reference ∩ token_set hypothesis = ∅ /\
  ~ (token_set reference = ∅ /\ token_set hypothesis = ∅).
Proof.
  rewrite semantic_similarity_fallback, <- jaccard_zero_iff.
  split; [by intros [= ->] | by intros ->].
Qed.

(** ** A token shared with its case is shared without it *)

Section CrossMetric.




End CrossMetric.



(** ** The finished table *)

Section FinishedTable.

Variables a b : list string.

Lemma lcs_suffix_cons_l_le (x : string) (l k : list string) :
  lcs_suffix l k <= lcs_suffix (x :: l) k.
Proof.
  destruct (lcs_suffix_attained l k) as [s [[Hsl Hsk] <-]].
  apply lcs_suffix_bound. split; [by apply sublist_cons | done].
Qed.

Lemma lcs_suffix_cons_r_le (y : string) (l k : list string) :
  lcs_suffix l k <= lcs_suffix l (y :: k).
Proof.
  rewrite (lcs_suffix_comm l k), (lcs_suffix_comm l (y :: k)).
  apply lcs_suffix_cons_l_le.
Qed.

Lemma cell_value_down_le (i j : nat) :
  cell_value a b (i + 1) j <= cell_value a b i j.
Proof.
  unfold cell_value. rewrite Nat.add_1_r.
  destruct (a !! i) as [x|] eqn:Hi.
  - rewrite (drop_S a x i Hi). apply lcs_suffix_cons_l_le.
  - apply lookup_ge_None in Hi.
    rewrite (drop_ge a i), (drop_ge a (S i)) by lia. done.
Qed.

Lemma cell_value_right_le (i j : nat) :
  cell_value a b i (j + 1) <= cell_value a b i j.
Proof.
  unfold cell_value. rewrite Nat.add_1_r.
  destruct (b !! j) as [y|] eqn:Hj.
  - rewrite (drop_S b y j Hj). apply lcs_suffix_cons_r_le.
  - apply lookup_ge_None in Hj.
    rewrite (drop_ge b j), (drop_ge b (S j)) by lia. done.
Qed.

Lemma cell_value_bound (i j : nat) :
  cell_value a b i j <= Nat.min (length a - i) (length b - j).
Proof.
  unfold cell_value.
  pose proof (lcs_suffix_le_l (drop i a) (drop j b)) as Hl.
  pose proof (lcs_suffix_le_r (drop i a) (drop j b)) as Hr.
  rewrite length_drop in Hl, Hr. lia.
Qed.

Lemma dp_get_in_range (dp : table) (i j v : nat) :
  shape a b dp -> dp_get dp i j = Some v -> i <= length a /\ j <= length b.
Proof.
  intros [Hlen Hrows] Hget. unfold dp_get in Hget.
  destruct (dp !! i) as [row|] eqn:Hrow; [|done]. simpl in Hget.
  apply lookup_lt_Some in Hget. rewrite (Hrows i row Hrow) in Hget.
  apply lookup_lt_Some in Hrow. lia.
Qed.

End FinishedTable.

(** X12.  For every two token sequences the loops of [rouge_l_f1] finish
    with a table of [len(a) + 1] rows of [len(b) + 1] cells; a read is an
    [IndexError] exactly outside these bounds; cell [(i, j)] is at most
    [min(len(a) - i, len(b) - j)], and it is at least the cell below it and
    the cell to its right. *)
Theorem lcs_table_shape_bounds_monotone (a b : list string) :
  exists dp : table,
    lcs_table a b = Some dp /\
    length dp = length a + 1 /\
    (forall i row, dp !! i = Some row -> length row = length b + 1) /\
    (forall i j, dp_get dp i j = None <-> length a < i \/ length b < j) /\
    (forall i j v, dp_get dp i j = Some v ->
       v <= Nat.min (length a - i) (length b - j)) /\
    (forall i j v w, dp_get dp i j = Some v -> dp_get dp (i + 1) j = Some w ->
       w <= v) /\
    (forall i j v w, dp_get dp i j = Some v -> dp_get dp i (j + 1) = Some w ->
       w <= v).
Proof.
  destruct (outer_loop_inv a b (length a) (dp_new (length a) (length b))
              (Nat.le_refl _) (dp_new_inv a b)) as [dp [Hrun [Hshape Hinv]]].
  assert (Hcells : forall i j, i <= length a -> j <= length b ->
            dp_get dp i j = Some (cell_value a b i j)).
  { intros i j Hi Hj. rewrite Hinv by done. unfold written.
    by rewrite bool_decide_eq_true_2 by lia. }
  assert (Hval : forall i j v, dp_get dp i j = Some v -> v = cell_value a b i j).
  { intros i j v Hget.
    destruct (dp_get_in_range a b dp i j v Hshape Hget) as [Hi Hj].
    rewrite Hcells in Hget by done. by injection Hget. }
  exists dp. split; [exact Hrun|]. split; [apply Hshape|].
  split; [apply Hshape|]. split; [|split; [|split]].
  - intros i j. split.
    + intros Hnone.
      destruct (decide (i <= length a)); [|lia].
      destruct (decide (j <= length b)); [|lia].
      by rewrite Hcells in Hnone.
    + intros Hout. destruct (dp_get dp i j) as [v|] eqn:Hget; [|done].
      apply (dp_get_in_range a b dp i j v Hshape) in Hget. lia.
  - intros i j v ->%Hval. apply cell_value_bound.
  - intros i j v w ->%Hval ->%Hval. apply cell_value_down_le.
  - intros i j v w ->%Hval ->%Hval. apply cell_value_right_le.
Qed.

Lemma lcs_table_shape_bounds_monotone_witness :
  exists dp : table,
    lcs_table ["a"; "b"; "c"] ["b"; "c"; "d"] = Some dp /\
    length dp = 4 /\
    dp_get dp 4 0 = None /\
    (forall v w, dp_get dp 0 0 = Some v -> dp_get dp 1 0 = Some w ->
       w <= v /\ v <= 3).
Proof.
  destruct (lcs_table_shape_bounds_monotone ["a"; "b"; "c"] ["b"; "c"; "d"])
    as (dp & Hrun & Hlen & _ & Hnone & Hbound & Hdown & _).
  exists dp. split; [exact Hrun|]. split; [exact Hlen|].
  split; [apply Hnone; simpl; lia|].
  intros v w Hv Hw. split; [exact (Hdown 0 0 v w Hv Hw)|].
  exact (Nat.le_trans _ _ _ (Hbound 0 0 v Hv) (Nat.le_min_l _ _)).
Defined.

(** ** The assertions of the test functions *)

Section TestFacts.

Lemma py_assert_ge (x y : R) : (x >= y)%R -> py_assert (float_ge x y) = Some tt.
Proof. intros H. unfold py_assert, float_ge. by destruct (Rge_dec x y). Qed.

Lemma py_assert_gt (x y : R) : (x > y)%R -> py_assert (float_gt x y) = Some tt.
Proof. intros H. unfold py_assert, float_gt. by destruct (Rgt_dec x y). Qed.

Lemma py_assert_lt (x y : R) : (x < y)%R -> py_assert (float_lt x y) = Some tt.
Proof. intros H. unfold py_assert, float_lt. by destruct (Rlt_dec x y). Qed.

Lemma float_lt_true (x y : R) : (x < y)%R -> float_lt x y = true.
Proof. intros H. unfold float_lt. by destruct (Rlt_dec x y). Qed.

Lemma test_simple_bleu_threshold_passes : test_simple_bleu_threshold = Some tt.
Proof.
  unfold test_simple_bleu_threshold. cbv zeta.
  assert (Hgood : simple_bleu "Hello world this is a test"
                    "Hello world this is a test" = Some 1%R).
  { rewrite simple_bleu_value by done. f_equal. unfold unigram_precision.
    change (brevity_penalty _ _) with (brevity_penalty 6 6).
    unfold brevity_penalty. case_decide; [|lia]. eval_counts. lra. }
  assert (Hok : simple_bleu "Hello world this is a test" "Hello this is test"
                = Some (1 * exp (1 - 6 / 4))%R).
  { rewrite simple_bleu_value by done. f_equal. unfold unigram_precision.
    change (brevity_penalty _ _) with (brevity_penalty 6 4).
    unfold brevity_penalty. case_decide; [lia|]. eval_counts.
    f_equal. lra. }
  assert (Hbad : simple_bleu "Hello world this is a test"
                   "Completely different sentence" = Some 0%R).
  { rewrite simple_bleu_value by done. f_equal. unfold unigram_precision.
    eval_counts. lra. }
  rewrite Hgood, Hok, Hbad. cbn [mbind option_bind].
  rewrite (py_assert_ge 1 0.9) by lra. cbn [mbind option_bind].
  rewrite (py_assert_ge (1 * exp (1 - 6 / 4)) 0.4)
    by (pose proof (exp_ineq1_le (1 - 6 / 4)); lra).
  cbn [mbind option_bind]. apply py_assert_lt. lra.
Qed.

Lemma test_rouge_l_f1_values_passes : test_rouge_l_f1_values = Some tt.
Proof.
  unfold test_rouge_l_f1_values. cbv zeta.
  assert (Hgood : rouge_l_f1 "The quick brown fox jumps over the lazy dog"
                    "The quick brown fox jumps over the lazy dog" = Some 1%R).
  { rewrite rouge_l_f1_value.
    change (rouge_value _ _ _) with (rouge_value 9 9 9).
    by rewrite rouge_value_pos, f1_diag by lia. }
  assert (Hpartial : rouge_l_f1 "The quick brown fox jumps over the lazy dog"
                       "The quick brown fox jumps" = Some (f1 5 9 5)).
  { rewrite rouge_l_f1_value.
    change (rouge_value _ _ _) with (rouge_value 5 9 5).
    by rewrite rouge_value_pos by lia. }
  rewrite Hgood, Hpartial. cbn [mbind option_bind].
  rewrite (py_assert_gt 1 0.9) by lra. cbn [mbind option_bind].
  apply py_assert_gt. unfold f1. eval_counts. lra.
Qed.

Lemma test_length_ratio_passes : test_length_ratio = Some tt.
Proof.
  unfold test_length_ratio. cbv zeta.
  change (length (split "Short sentence")) with 2.
  change (length (split "Short sentence for testing")) with 4.
  change (length (split _)) with 12.
  unfold truediv. cbn [mbind option_bind].
  eval_counts.
  rewrite (float_lt_true (2 / 4) 0.7) by lra.
  rewrite orb_true_r. cbn [py_assert mbind option_bind].
  apply py_assert_gt. lra.
Qed.

Lemma test_semantic_similarity_fallback_passes :
  test_semantic_similarity_with_sklearn_or_jaccard None = Some tt.
Proof.
  unfold test_semantic_similarity_with_sklearn_or_jaccard. cbv zeta.
  rewrite !semantic_similarity_fallback. cbn [mbind option_bind].
  rewrite !jaccard_nonempty by (by apply token_set_nonempty).
  eval_counts.
  rewrite (py_assert_gt (4 / 8) (1 / 10)) by lra. cbn [mbind option_bind].
  rewrite (py_assert_ge (4 / 8) 0.4) by lra. cbn [mbind option_bind].
  apply py_assert_lt. lra.
Qed.

End TestFacts.

(** X13.  No assertion of the metric tests fails:
    [test_simple_bleu_threshold], [test_rouge_l_f1_values] and
    [test_length_ratio] pass, and
    [test_semantic_similarity_with_sklearn_or_jaccard] passes when
    scikit-learn is not available. *)
Theorem metric_tests_pass :
  test_simple_bleu_threshold = Some tt /\
  test_rouge_l_f1_values = Some tt /\
  test_length_ratio = Some tt /\
  test_semantic_similarity_with_sklearn_or_jaccard None = Some tt.
Proof.
  repeat split.
  - apply test_simple_bleu_threshold_passes.
  - apply test_rouge_l_f1_values_passes.
  - apply test_length_ratio_passes.
  - apply test_semantic_similarity_fallback_passes.
Qed.

(** ** Agreement of the metrics at their extremes *)



(** X15.  Whenever [rouge_l_f1] is 1, [simple_bleu] is 1 and so is
    [semantic_similarity] without scikit-learn. *)
Theorem rouge_one_implies_others_one (reference hypothesis : string) :
  rouge_l_f1 reference hypothesis = Some 1%R ->
  simple_bleu reference hypothesis = Some 1%R /\
  semantic_similarity None reference hypothesis = Some 1%R.
Proof.
  rewrite rouge_l_f1_value. intros [= Hone].
  apply rouge_value_one_iff in Hone as (Hk & Hkn & Hkm);
    [|apply lcs_suffix_le_l|apply lcs_suffix_le_r].
  assert (Heq : split reference = split hypothesis)
    by (by apply lcs_suffix_full).
  assert (Hlow : split (lower reference) = split (lower hypothesis))
    by (by rewrite !split_lower, Heq).
  assert (Hne : split (lower hypothesis) <> []).
  { rewrite split_lower_nil. intros Hnil.
    rewrite Hkm, Hnil in Hk. simpl in Hk. lia. }
  split.
  - rewrite simple_bleu_value, Hlow by done. f_equal.
    unfold unigram_precision, brevity_penalty.
    rewrite count_in_self. case_decide; [|lia].
    rewrite quotient_self; [lra|].
    apply not_0_INR. destruct (split (lower hypothesis)); [done | simpl; lia].
  - rewrite semantic_similarity_fallback. f_equal.
    apply jaccard_one_iff. unfold token_set. by rewrite Hlow.
Qed.

Lemma rouge_one_implies_others_one_witness :
  simple_bleu "Hello  world" " Hello world" = Some 1%R /\
  semantic_similarity None "Hello  world" " Hello world" = Some 1%R.
Proof.
  apply (rouge_one_implies_others_one "Hello  world" " Hello world").
  rewrite rouge_l_f1_value.
  change (rouge_value _ _ _) with (rouge_value 2 2 2).
  by rewrite rouge_value_pos, f1_diag by lia.
Defined.
